(** * Chaindrive ride backend: the ride registry actor

    A shallow embedding of the Motoko actor [RideBackend]
    (src/backend/README.md, the [main.mo] part) and the properties of its
    ride lifecycle.

    Modelling choices, following the source:
    - [Nat] is unbounded in Motoko, so [RideId] is [N] without wrap-around;
      [Int] is [Z].
    - [Float] values are only stored and returned, never computed with; they
      are binary64 values in the [spec_float] representation.
    - [Principal] is an opaque identity compared with [==] only; it is
      carried in its textual form.
    - [HashMap.HashMap<RideId, Ride>] is a finite map [gmap N Ride];
      [rides.vals()] enumerates its values in an unspecified order.
    - The actor's state ([nextRideId], [rides]) is threaded through a state
      monad.  No method body contains an [await], so every message is
      processed atomically and an execution is a sequence of messages.
    - [msg.caller] and the reading of [Time.now()] are inputs of a call.
    - Executions start from a fresh install; canister upgrades (which keep
      the stable [nextRideId] and rebuild [rides]) are not messages and are
      not part of the model. *)

From Stdlib Require Import ZArith NArith Floats.SpecFloat.
From stdpp Require Import gmap strings list fin_maps sorting.

(** ** Types *)

(** [type RideId = Nat] *)
Abbreviation RideId := N (only parsing).
Definition Principal := string.
Definition UserId := Principal.
Definition Text := string.
Definition Int := Z.
Definition Float := spec_float.

Record Location := {
  latitude : Float;
  longitude : Float;
}.

Inductive RideStatus :=
| pending
| accepted
| completed
| cancelled.

#[global] Instance RideStatus_eq_dec : EqDecision RideStatus.
Proof. solve_decision. Defined.

Record Ride := {
  id : RideId;
  passengerId : UserId;
  driverId : option UserId;
  pickupLocation : Location;
  dropoffLocation : Location;
  status : RideStatus;
  price : Float;
  createdAt : Int;
  updatedAt : Int;
}.

(** [Result.Result<Ok, Err>] of [mo:base/Result]. *)
Inductive Result (Ok Err : Type) :=
| ok (v : Ok)
| err (e : Err).
Arguments ok {Ok Err} v.
Arguments err {Ok Err} e.

(** ** The actor state and its monad *)

Record Registry := {
  nextRideId : N;
  rides : gmap N Ride;
}.

(** The state of a freshly installed actor: [nextRideId = 1], no rides. *)
Definition init : Registry :=
  {| nextRideId := 1%N; rides := ∅ |}.

Definition Actor (A : Type) : Type := Registry → A * Registry.

#[global] Instance Actor_ret : MRet Actor := λ A a st, (a, st).
#[global] Instance Actor_bind : MBind Actor :=
  λ A B f m st, let '(a, st') := m st in f a st'.

Definition read_nextRideId : Actor N :=
  λ st, (nextRideId st, st).
Definition write_nextRideId (n : N) : Actor unit :=
  λ st, (tt, {| nextRideId := n; rides := rides st |}).
Definition rides_get (k : RideId) : Actor (option Ride) :=
  λ st, (rides st !! k, st).
Definition rides_put (k : RideId) (v : Ride) : Actor unit :=
  λ st, (tt, {| nextRideId := nextRideId st; rides := <[k := v]> (rides st) |}).
Definition rides_vals : Actor (list Ride) :=
  λ st, ((map_to_list (rides st)).*2, st).

(** ** Update methods *)

Section Methods.
(** [msg.caller] and the value of [Time.now()] during the call. *)
Variable caller : Principal.
Variable now : Int.

Definition createRide (pickupLocation dropoffLocation : Location) (price : Float)
  : Actor (Result Ride Text) :=
  rideId ← read_nextRideId;
  write_nextRideId (rideId + 1)%N;;
  let ride := {|
    id := rideId;
    passengerId := caller;
    driverId := None;
    pickupLocation := pickupLocation;
    dropoffLocation := dropoffLocation;
    status := pending;
    price := price;
    createdAt := now;
    updatedAt := now;
  |} in
  rides_put rideId ride;;
  mret (ok ride).

Definition acceptRide (rideId : RideId) : Actor (Result Ride Text) :=
  found ← rides_get rideId;
  match found with
  | Some ride =>
      if decide (status ride ≠ pending) then
        mret (err "Ride is not available for acceptance")
      else
        let updatedRide := {|
          id := id ride;
          passengerId := passengerId ride;
          driverId := Some caller;
          pickupLocation := pickupLocation ride;
          dropoffLocation := dropoffLocation ride;
          status := accepted;
          price := price ride;
          createdAt := createdAt ride;
          updatedAt := now;
        |} in
        rides_put rideId updatedRide;;
        mret (ok updatedRide)
  | None => mret (err "Ride not found")
  end.

Definition completeRide (rideId : RideId) : Actor (Result Ride Text) :=
  found ← rides_get rideId;
  match found with
  | Some ride =>
      if decide (driverId ride ≠ Some caller) then
        mret (err "Only the assigned driver can complete the ride")
      else
        let updatedRide := {|
          id := id ride;
          passengerId := passengerId ride;
          driverId := driverId ride;
          pickupLocation := pickupLocation ride;
          dropoffLocation := dropoffLocation ride;
          status := completed;
          price := price ride;
          createdAt := createdAt ride;
          updatedAt := now;
        |} in
        rides_put rideId updatedRide;;
        mret (ok updatedRide)
  | None => mret (err "Ride not found")
  end.
End Methods.

(** ** Query methods

    A [query func] cannot change the actor state: it is a function of it. *)

Definition getRide (rideId : RideId) (st : Registry) : option Ride :=
  (rides_get rideId st).1.

(** [for (ride in rides.vals()) { if (keep ride) { buffer.add(ride) } };
    buffer.toArray()]: the loop shared by the three listing queries. *)
Definition collect (keep : Ride → bool) (vals : list Ride) : list Ride :=
  foldl (λ buffer ride, if keep ride then buffer ++ [ride] else buffer) [] vals.

Definition getPassengerRides (passengerId' : UserId) (st : Registry) : list Ride :=
  collect (λ ride, bool_decide (passengerId ride = passengerId')) (rides_vals st).1.

Definition getAvailableRides (st : Registry) : list Ride :=
  collect (λ ride, bool_decide (status ride = pending)) (rides_vals st).1.

Definition getDriverRides (driverId' : UserId) (st : Registry) : list Ride :=
  collect (λ ride, match driverId ride with
                   | Some id' => bool_decide (id' = driverId')
                   | None => false
                   end) (rides_vals st).1.

(** ** Executions

    An update call together with the identity of its caller and the clock
    reading of the round that processes it. *)

Inductive Call :=
| CreateRide (pickupLocation dropoffLocation : Location) (price : Float)
| AcceptRide (rideId : RideId)
| CompleteRide (rideId : RideId).

Record Message := {
  msg_caller : Principal;
  msg_time : Int;
  msg_call : Call;
}.

Definition dispatch (m : Message) : Actor (Result Ride Text) :=
  match msg_call m with
  | CreateRide pickup dropoff price' =>
      createRide (msg_caller m) (msg_time m) pickup dropoff price'
  | AcceptRide rideId => acceptRide (msg_caller m) (msg_time m) rideId
  | CompleteRide rideId => completeRide (msg_caller m) (msg_time m) rideId
  end.

(** Messages are processed one after the other; the replies are collected. *)
Fixpoint run (ms : list Message) : Actor (list (Result Ride Text)) :=
  match ms with
  | [] => mret []
  | m :: ms' =>
      r ← dispatch m;
      rs ← run ms';
      mret (r :: rs)
  end.

Inductive reachable : Registry → Prop :=
| reachable_init : reachable init
| reachable_step st m : reachable st → reachable (dispatch m st).2.

(** The ids handed out by the successful [createRide] calls of an execution,
    in the order of the calls. *)
Definition created_id (m : Message) (r : Result Ride Text) : option RideId :=
  match msg_call m, r with
  | CreateRide _ _ _, ok ride => Some (id ride)
  | _, _ => None
  end.

Definition createdIds (ms : list Message) (st : Registry) : list RideId :=
  omap (λ mr, created_id mr.1 mr.2) (zip ms (run ms st).1).

(** Successive clock readings strictly increase. *)
Definition clock_increasing (ms : list Message) : Prop :=
  StronglySorted Z.lt (msg_time <$> ms).

(** The transitions of the ride lifecycle. *)
Inductive lifecycle : RideStatus → RideStatus → Prop :=
| lifecycle_accept : lifecycle pending accepted
| lifecycle_complete : lifecycle accepted completed
| lifecycle_cancel : lifecycle pending cancelled.

(** [driverId] is set exactly on the accepted and completed rides. *)
Definition driver_assigned (st : Registry) : Prop :=
  ∀ k ride, rides st !! k = Some ride →
    (driverId ride ≠ None ↔ status ride = accepted ∨ status ride = completed).

(** ** Records written by the methods, and predicates on registries *)

(** What [{ ride with driverId = ?caller; status = #accepted; updatedAt = now }]
    and [{ ride with status = #completed; updatedAt = now }] evaluate to. *)
Definition accepted_by (caller : Principal) (now : Int) (ride : Ride) : Ride :=
  {| id := id ride; passengerId := passengerId ride; driverId := Some caller;
     pickupLocation := pickupLocation ride;
     dropoffLocation := dropoffLocation ride;
     status := accepted; price := price ride;
     createdAt := createdAt ride; updatedAt := now |}.

Definition completed_at (now : Int) (ride : Ride) : Ride :=
  {| id := id ride; passengerId := passengerId ride; driverId := driverId ride;
     pickupLocation := pickupLocation ride;
     dropoffLocation := dropoffLocation ride;
     status := completed; price := price ride;
     createdAt := createdAt ride; updatedAt := now |}.

Definition created_by (caller : Principal) (now : Int) (k : RideId)
    (pickup dropoff : Location) (price' : Float) : Ride :=
  {| id := k; passengerId := caller; driverId := None;
     pickupLocation := pickup; dropoffLocation := dropoff;
     status := pending; price := price';
     createdAt := now; updatedAt := now |}.

Definition with_ride (k : RideId) (ride : Ride) (st : Registry) : Registry :=
  {| nextRideId := nextRideId st; rides := <[k := ride]> (rides st) |}.

(** The four ways in which a message is answered. *)
Inductive step (m : Message) (st : Registry) :
    Result Ride Text * Registry → Prop :=
| step_create pickup dropoff price' :
    msg_call m = CreateRide pickup dropoff price' →
    let ride := created_by (msg_caller m) (msg_time m) (nextRideId st)
                  pickup dropoff price' in
    step m st (ok ride,
               {| nextRideId := (nextRideId st + 1)%N;
                  rides := <[nextRideId st := ride]> (rides st) |})
| step_accept k ride :
    msg_call m = AcceptRide k →
    rides st !! k = Some ride →
    status ride = pending →
    let ride' := accepted_by (msg_caller m) (msg_time m) ride in
    step m st (ok ride', with_ride k ride' st)
| step_complete k ride :
    msg_call m = CompleteRide k →
    rides st !! k = Some ride →
    driverId ride = Some (msg_caller m) →
    let ride' := completed_at (msg_time m) ride in
    step m st (ok ride', with_ride k ride' st)
| step_reject e :
    (∀ pickup dropoff price', msg_call m ≠ CreateRide pickup dropoff price') →
    step m st (err e, st).

(** Every ride is stored under its own id, and ids in use are below the
    counter. *)
Definition ids_allocated (st : Registry) : Prop :=
  ∀ k ride, rides st !! k = Some ride →
    id ride = k ∧ (1 ≤ k < nextRideId st)%N.

Definition none_cancelled (st : Registry) : Prop :=
  ∀ k ride, rides st !! k = Some ride → status ride ≠ cancelled.

(** Every stored ride was created no later than it was last updated, and
    last updated no later than [t]. *)
Definition stamped (t : Int) (st : Registry) : Prop :=
  ∀ k ride, rides st !! k = Some ride →
    (createdAt ride ≤ updatedAt ride ≤ t)%Z.

(** The fields that no method writes after creation. *)
Definition same_request (ride ride' : Ride) : Prop :=
  id ride' = id ride ∧
  passengerId ride' = passengerId ride ∧
  pickupLocation ride' = pickupLocation ride ∧
  dropoffLocation ride' = dropoffLocation ride ∧
  price ride' = price ride ∧
  createdAt ride' = createdAt ride.

(** Successive clock readings never decrease (they may repeat). *)
Definition clock_monotone (ms : list Message) : Prop :=
  StronglySorted Z.le (msg_time <$> ms).

(** ** Sample data *)

Definition float_12_5 : Float := S754_finite false 7036874417766400 (-49).
Definition float_6_5 : Float := S754_finite false 7318349394477056 (-50).
(** The binary64 value nearest to 3.3, [0x1.a666666666666p+1]. *)
Definition float_3_3 : Float := S754_finite false 7430939385161318 (-51).
Definition float_5_0 : Float := S754_finite false 5629499534213120 (-50).
Definition float_7_5 : Float := S754_finite false 8444249301319680 (-50).

Definition sample_pickup : Location :=
  {| latitude := float_6_5; longitude := float_3_3 |}.
Definition sample_dropoff : Location :=
  {| latitude := float_5_0; longitude := float_7_5 |}.

Definition sample_create (passenger : Principal) (t : Int) : Message :=
  {| msg_caller := passenger; msg_time := t;
     msg_call := CreateRide sample_pickup sample_dropoff float_12_5 |}.
Definition sample_accept (driver : Principal) (t : Int) (k : RideId) : Message :=
  {| msg_caller := driver; msg_time := t; msg_call := AcceptRide k |}.
Definition sample_complete (driver : Principal) (t : Int) (k : RideId) : Message :=
  {| msg_caller := driver; msg_time := t; msg_call := CompleteRide k |}.

(** One pending ride, one accepted ride, one completed ride. *)
Definition sample_trace : list Message :=
  [ sample_create "alice" 10%Z; sample_create "bob" 11%Z;
    sample_create "carol" 12%Z;
    sample_accept "dave" 13%Z 2%N; sample_accept "erin" 14%Z 3%N;
    sample_complete "erin" 15%Z 3%N ].

Definition sample_registry : Registry := (run sample_trace init).2.

(** The rides stored in [sample_registry]. *)
Definition sample_ride_1 : Ride :=
  {| id := 1%N; passengerId := "alice"; driverId := None;
     pickupLocation := sample_pickup; dropoffLocation := sample_dropoff;
     status := pending; price := float_12_5;
     createdAt := 10%Z; updatedAt := 10%Z |}.
Definition sample_ride_2 : Ride :=
  {| id := 2%N; passengerId := "bob"; driverId := Some "dave";
     pickupLocation := sample_pickup; dropoffLocation := sample_dropoff;
     status := accepted; price := float_12_5;
     createdAt := 11%Z; updatedAt := 13%Z |}.
Definition sample_ride_3 : Ride :=
  {| id := 3%N; passengerId := "carol"; driverId := Some "erin";
     pickupLocation := sample_pickup; dropoffLocation := sample_dropoff;
     status := completed; price := float_12_5;
     createdAt := 12%Z; updatedAt := 15%Z |}.

(** ** Checks on the sample data *)

Example sample_floats_binary64 :
  forallb (valid_binary 53 1024)
    [float_12_5; float_6_5; float_3_3; float_5_0; float_7_5] = true.
Proof. reflexivity. Qed.

Example sample_registry_rides :
  rides sample_registry =
    list_to_map
      [(1%N, sample_ride_1); (2%N, sample_ride_2); (3%N, sample_ride_3)] ∧
  nextRideId sample_registry = 4%N.
Proof. split; [| reflexivity]. vm_compute. reflexivity. Qed.

Example sample_createdIds : createdIds sample_trace init = [1%N; 2%N; 3%N].
Proof. vm_compute. reflexivity. Qed.

Example sample_available :
  getAvailableRides sample_registry = [sample_ride_1].
Proof. vm_compute. reflexivity. Qed.

Example sample_driver_rides :
  getDriverRides "erin" sample_registry = [sample_ride_3] ∧
  getPassengerRides "bob" sample_registry = [sample_ride_2].
Proof. split; vm_compute; reflexivity. Qed.

(** ** Equations of the methods *)

Lemma createRide_eq caller now pickup dropoff price' st :
  createRide caller now pickup dropoff price' st =
  let ride := {| id := nextRideId st; passengerId := caller; driverId := None;
                 pickupLocation := pickup; dropoffLocation := dropoff;
                 status := pending; price := price';
                 createdAt := now; updatedAt := now |} in
  (ok ride, {| nextRideId := (nextRideId st + 1)%N;
               rides := <[nextRideId st := ride]> (rides st) |}).
Proof. reflexivity. Qed.

Ltac unfold_actor :=
  unfold acceptRide, completeRide, createRide, getRide, rides_get, rides_put,
    read_nextRideId, write_nextRideId, mbind, mret, Actor_bind, Actor_ret;
  cbn.

Lemma acceptRide_missing caller now k st :
  rides st !! k = None →
  acceptRide caller now k st = (err "Ride not found", st).
Proof. intros Hk. unfold_actor. by rewrite Hk. Qed.

Lemma acceptRide_unavailable caller now k st ride :
  rides st !! k = Some ride → status ride ≠ pending →
  acceptRide caller now k st = (err "Ride is not available for acceptance", st).
Proof. intros Hk Hs. unfold_actor. rewrite Hk. by destruct (decide _). Qed.

Lemma acceptRide_available caller now k st ride :
  rides st !! k = Some ride → status ride = pending →
  acceptRide caller now k st =
  (ok (accepted_by caller now ride),
   {| nextRideId := nextRideId st;
      rides := <[k := accepted_by caller now ride]> (rides st) |}).
Proof. intros Hk Hs. unfold_actor. rewrite Hk. by destruct (decide _). Qed.

Lemma completeRide_missing caller now k st :
  rides st !! k = None →
  completeRide caller now k st = (err "Ride not found", st).
Proof. intros Hk. unfold_actor. by rewrite Hk. Qed.

Lemma completeRide_other caller now k st ride :
  rides st !! k = Some ride → driverId ride ≠ Some caller →
  completeRide caller now k st =
  (err "Only the assigned driver can complete the ride", st).
Proof. intros Hk Hd. unfold_actor. rewrite Hk. by destruct (decide _). Qed.

Lemma completeRide_driver caller now k st ride :
  rides st !! k = Some ride → driverId ride = Some caller →
  completeRide caller now k st =
  (ok (completed_at now ride),
   {| nextRideId := nextRideId st;
      rides := <[k := completed_at now ride]> (rides st) |}).
Proof. intros Hk Hd. unfold_actor. rewrite Hk. by destruct (decide _). Qed.

(** ** The transitions *)

(** C1. [acceptRide] by any caller on a pending ride succeeds: the ride gets
    status accepted, the caller as driver and the current time as
    [updatedAt]; its other fields, the other rides and the id counter are
    unchanged, and the returned record is the one stored under the id. *)
Theorem acceptRide_pending caller now k st ride :
  rides st !! k = Some ride →
  status ride = pending →
  ∃ ride' st',
    acceptRide caller now k st = (ok ride', st') ∧
    status ride' = accepted ∧
    driverId ride' = Some caller ∧
    updatedAt ride' = now ∧
    id ride' = id ride ∧
    passengerId ride' = passengerId ride ∧
    pickupLocation ride' = pickupLocation ride ∧
    dropoffLocation ride' = dropoffLocation ride ∧
    price ride' = price ride ∧
    createdAt ride' = createdAt ride ∧
    getRide k st' = Some ride' ∧
    (∀ k', k' ≠ k → rides st' !! k' = rides st !! k') ∧
    nextRideId st' = nextRideId st.
Proof.
  intros Hk Hs. eexists _, _. split.
  { by apply acceptRide_available. }
  repeat split; cbn.
  - unfold getRide, rides_get; cbn. apply lookup_insert_eq.
  - intros k' Hne. by apply lookup_insert_ne.
Qed.

Lemma acceptRide_pending_witness :
  ∃ ride' st',
    acceptRide "dave" 20%Z 1%N sample_registry = (ok ride', st') ∧
    status ride' = accepted ∧
    driverId ride' = Some "dave" ∧
    updatedAt ride' = 20%Z ∧
    id ride' = 1%N ∧
    passengerId ride' = "alice" ∧
    getRide 1%N st' = Some ride' ∧
    rides st' !! 2%N = rides sample_registry !! 2%N.
Proof.
  destruct (acceptRide_pending "dave" 20%Z 1%N sample_registry sample_ride_1)
    as (ride' & st' & Hrun & Hst & Hdr & Hup & Hid & Hpa & _ & _ & _ & _ & Hget & Hoth & _).
  - vm_compute. reflexivity.
  - reflexivity.
  - exists ride', st'. rewrite Hid, Hpa. repeat split; try done.
    apply Hoth. done.
Defined.

(** C2. [completeRide] by the recorded driver succeeds whatever the status
    of the ride is (there is no test that it is accepted, so a completed
    ride is completed again): the status becomes completed and [updatedAt]
    the current time; the other fields of the ride, the other rides and the
    id counter are unchanged. *)
Theorem completeRide_by_driver caller now k st ride :
  rides st !! k = Some ride →
  driverId ride = Some caller →
  ∃ ride' st',
    completeRide caller now k st = (ok ride', st') ∧
    status ride' = completed ∧
    updatedAt ride' = now ∧
    id ride' = id ride ∧
    passengerId ride' = passengerId ride ∧
    driverId ride' = driverId ride ∧
    pickupLocation ride' = pickupLocation ride ∧
    dropoffLocation ride' = dropoffLocation ride ∧
    price ride' = price ride ∧
    createdAt ride' = createdAt ride ∧
    getRide k st' = Some ride' ∧
    (∀ k', k' ≠ k → rides st' !! k' = rides st !! k') ∧
    nextRideId st' = nextRideId st.
Proof.
  intros Hk Hd. exists (completed_at now ride). eexists. split.
  { by apply completeRide_driver. }
  repeat split; cbn.
  - unfold getRide, rides_get; cbn. apply lookup_insert_eq.
  - intros k' Hne. by apply lookup_insert_ne.
Qed.

(** The completed ride 3 of the sample registry is completed once more. *)
Lemma completeRide_by_driver_witness :
  status sample_ride_3 = completed ∧
  ∃ ride' st',
    completeRide "erin" 30%Z 3%N sample_registry = (ok ride', st') ∧
    status ride' = completed ∧
    updatedAt ride' = 30%Z ∧
    getRide 3%N st' = Some ride' ∧
    rides st' !! 1%N = rides sample_registry !! 1%N.
Proof.
  split; [reflexivity |].
  destruct (completeRide_by_driver "erin" 30%Z 3%N sample_registry sample_ride_3)
    as (ride' & st' & Hrun & Hst & Hup & _ & _ & _ & _ & _ & _ & _ & Hget & Hoth & _).
  - vm_compute. reflexivity.
  - reflexivity.
  - exists ride', st'. repeat split; try done. by apply Hoth.
Defined.

(** C3. [acceptRide] on an unknown id replies with the not-found error, and
    on a ride that is not pending with the error "Ride is not available for
    acceptance"; either way the registry is left as it was. *)
Theorem acceptRide_errors caller now k st :
  (rides st !! k = None →
   acceptRide caller now k st = (err "Ride not found", st)) ∧
  (∀ ride, rides st !! k = Some ride → status ride ≠ pending →
   acceptRide caller now k st =
   (err "Ride is not available for acceptance", st)).
Proof.
  split.
  - apply acceptRide_missing.
  - intros ride. apply acceptRide_unavailable.
Qed.

Lemma acceptRide_errors_witness :
  acceptRide "dave" 20%Z 7%N sample_registry =
    (err "Ride not found", sample_registry) ∧
  acceptRide "dave" 20%Z 2%N sample_registry =
    (err "Ride is not available for acceptance", sample_registry) ∧
  acceptRide "dave" 20%Z 3%N sample_registry =
    (err "Ride is not available for acceptance", sample_registry).
Proof.
  split; [| split].
  - apply (acceptRide_errors "dave" 20%Z 7%N sample_registry).
    vm_compute. reflexivity.
  - apply (proj2 (acceptRide_errors "dave" 20%Z 2%N sample_registry) sample_ride_2).
    + vm_compute. reflexivity.
    + discriminate.
  - apply (proj2 (acceptRide_errors "dave" 20%Z 3%N sample_registry) sample_ride_3).
    + vm_compute. reflexivity.
    + discriminate.
Defined.

(** C4. [completeRide] on an unknown id replies with the not-found error,
    and by anyone who is not the recorded driver of the ride (so by anyone
    when no driver is recorded) with the error "Only the assigned driver can
    complete the ride"; either way the registry is left as it was. *)
Theorem completeRide_errors caller now k st :
  (rides st !! k = None →
   completeRide caller now k st = (err "Ride not found", st)) ∧
  (∀ ride, rides st !! k = Some ride → driverId ride ≠ Some caller →
   completeRide caller now k st =
   (err "Only the assigned driver can complete the ride", st)) ∧
  (∀ ride, rides st !! k = Some ride → driverId ride = None →
   completeRide caller now k st =
   (err "Only the assigned driver can complete the ride", st)).
Proof.
  split; [| split].
  - apply completeRide_missing.
  - intros ride. apply completeRide_other.
  - intros ride Hk Hd. apply (completeRide_other _ _ _ _ ride Hk).
    by rewrite Hd.
Qed.

Lemma completeRide_errors_witness :
  completeRide "erin" 20%Z 7%N sample_registry =
    (err "Ride not found", sample_registry) ∧
  completeRide "erin" 20%Z 2%N sample_registry =
    (err "Only the assigned driver can complete the ride", sample_registry) ∧
  completeRide "alice" 20%Z 1%N sample_registry =
    (err "Only the assigned driver can complete the ride", sample_registry).
Proof.
  split; [| split].
  - apply (completeRide_errors "erin" 20%Z 7%N sample_registry).
    vm_compute. reflexivity.
  - apply (proj1 (proj2 (completeRide_errors "erin" 20%Z 2%N sample_registry))
             sample_ride_2).
    + vm_compute. reflexivity.
    + discriminate.
  - apply (proj2 (proj2 (completeRide_errors "alice" 20%Z 1%N sample_registry))
             sample_ride_1).
    + vm_compute. reflexivity.
    + reflexivity.
Defined.

(** ** One message, case by case *)

Lemma dispatch_step m st : step m st (dispatch m st).
Proof.
  unfold dispatch. destruct (msg_call m) as [pickup dropoff price' | k | k] eqn:Hcall.
  - rewrite createRide_eq. by eapply step_create.
  - destruct (rides st !! k) as [ride |] eqn:Hk.
    + destruct (decide (status ride = pending)) as [Hs | Hs].
      * rewrite (acceptRide_available _ _ _ _ _ Hk Hs). by eapply step_accept.
      * rewrite (acceptRide_unavailable _ _ _ _ _ Hk Hs).
        apply step_reject. intros; congruence.
    + rewrite (acceptRide_missing _ _ _ _ Hk).
      apply step_reject. intros; congruence.
  - destruct (rides st !! k) as [ride |] eqn:Hk.
    + destruct (decide (driverId ride = Some (msg_caller m))) as [Hd | Hd].
      * rewrite (completeRide_driver _ _ _ _ _ Hk Hd). by eapply step_complete.
      * rewrite (completeRide_other _ _ _ _ _ Hk Hd).
        apply step_reject. intros; congruence.
    + rewrite (completeRide_missing _ _ _ _ Hk).
      apply step_reject. intros; congruence.
Qed.

(** Case analysis on the answer to [m] in [st]. *)
Ltac step_cases m st :=
  let H := fresh "Hstep" in
  pose proof (dispatch_step m st) as H;
  destruct H as [pickup dropoff price' Hcall new
                | k0 ride0 Hcall Hk0 Hs0 new
                | k0 ride0 Hcall Hk0 Hd0 new
                | e Hcall];
  cbn [fst snd rides nextRideId with_ride] in *.

(** A lookup in the registry after a [put]: the ride just written, or an
    older one. *)
Ltac put_cases Hk Hne :=
  cbn [rides nextRideId with_ride] in Hk;
  apply lookup_insert_Some in Hk as [[<- <-] | [Hne Hk]].

Lemma run_nil st : run [] st = ([], st).
Proof. reflexivity. Qed.

Lemma run_cons m ms st :
  run (m :: ms) st =
  ((dispatch m st).1 :: (run ms (dispatch m st).2).1,
   (run ms (dispatch m st).2).2).
Proof.
  cbn. unfold mbind, Actor_bind, mret, Actor_ret.
  destruct (dispatch m st) as [r st1]. cbn.
  by destruct (run ms st1) as [rs st2].
Qed.

Lemma run_snoc ms m st :
  (run (ms ++ [m]) st).2 = (dispatch m (run ms st).2).2.
Proof.
  revert st. induction ms as [| m' ms IH]; intros st.
  - rewrite app_nil_l, run_cons, run_nil. reflexivity.
  - rewrite <- app_comm_cons, !run_cons. cbn. apply IH.
Qed.

Lemma run_length ms st : length (run ms st).1 = length ms.
Proof.
  revert st. induction ms as [| m ms IH]; intros st; [done |].
  rewrite run_cons. cbn. by rewrite IH.
Qed.

Lemma reachable_run_from ms st : reachable st → reachable (run ms st).2.
Proof.
  revert st. induction ms as [| m ms IH]; intros st Hst; [done |].
  rewrite run_cons. cbn. apply IH. by constructor.
Qed.

Lemma reachable_run ms : reachable (run ms init).2.
Proof. apply reachable_run_from. constructor. Qed.

Lemma reachable_inv st : reachable st → ∃ ms, st = (run ms init).2.
Proof.
  induction 1 as [| st m _ [ms ->]].
  - by exists [].
  - exists (ms ++ [m]). by rewrite run_snoc.
Qed.

(** ** Invariants of the reachable registries *)

Lemma driver_assigned_init : driver_assigned init.
Proof. intros k ride Hk. cbn in Hk. by rewrite lookup_empty in Hk. Qed.

Lemma driver_assigned_dispatch m st :
  driver_assigned st → driver_assigned (dispatch m st).2.
Proof.
  intros Hinv. step_cases m st; [| | | done]; intros k ride Hk;
    (put_cases Hk Hne; [cbn | by eapply Hinv]).
  - split; [done | intros [? | ?]; discriminate].
  - split; [by left | done].
  - split; [by right | by rewrite Hd0].
Qed.

Lemma reachable_driver_assigned st : reachable st → driver_assigned st.
Proof.
  induction 1 as [| st m _ IH].
  - apply driver_assigned_init.
  - by apply driver_assigned_dispatch.
Qed.

Lemma reachable_ids_allocated st :
  reachable st → (1 ≤ nextRideId st)%N ∧ ids_allocated st.
Proof.
  induction 1 as [| st m _ [Hn IH]].
  - split; [done |]. intros k ride Hk. cbn in Hk. by rewrite lookup_empty in Hk.
  - step_cases m st; [| | | done]; (split; [cbn; lia |]); intros k ride Hk;
      put_cases Hk Hne; cbn.
    + lia.
    + destruct (IH _ _ Hk). split; [done | lia].
    + by apply IH.
    + by apply IH.
    + by apply IH.
    + by apply IH.
Qed.

Lemma reachable_fresh st : reachable st → rides st !! nextRideId st = None.
Proof.
  intros Hst. destruct (reachable_ids_allocated st Hst) as [_ Hids].
  destruct (rides st !! nextRideId st) as [ride |] eqn:Hk; [| done].
  destruct (Hids _ _ Hk). lia.
Qed.

Lemma reachable_none_cancelled st : reachable st → none_cancelled st.
Proof.
  induction 1 as [| st m _ IH].
  - intros k ride Hk. cbn in Hk. by rewrite lookup_empty in Hk.
  - step_cases m st; [| | | done]; intros k ride Hk;
      (put_cases Hk Hne; [done | by eapply IH]).
Qed.

(** The status of a stored ride after one more message. *)
Lemma dispatch_status st m k ride :
  reachable st →
  rides st !! k = Some ride →
  ∃ ride', rides (dispatch m st).2 !! k = Some ride' ∧
    (status ride' = status ride ∨ lifecycle (status ride) (status ride')).
Proof.
  intros Hst Hk. step_cases m st.
  - exists ride. split; [| by left].
    rewrite lookup_insert_ne; [done |].
    intros Heq. rewrite <- Heq, reachable_fresh in Hk; done.
  - destruct (decide (k0 = k)) as [Heq | Hne].
    + subst k0. exists new. rewrite lookup_insert_eq. split; [done |].
      right. rewrite Hk0 in Hk. injection Hk as <-.
      rewrite Hs0. constructor.
    + exists ride. rewrite lookup_insert_ne by done. split; [done | by left].
  - destruct (decide (k0 = k)) as [Heq | Hne].
    + subst k0. exists new. rewrite lookup_insert_eq. split; [done |].
      rewrite Hk0 in Hk. injection Hk as <-.
      assert (driverId ride0 ≠ None) as Hdr by (by rewrite Hd0).
      apply (reachable_driver_assigned st Hst k ride0 Hk0) in Hdr
        as [Hacc | Hdone].
      * right. rewrite Hacc. constructor.
      * left. by rewrite Hdone.
    + exists ride. rewrite lookup_insert_ne by done. split; [done | by left].
  - exists ride. split; [done | by left].
Qed.

Lemma run_status ms st k ride :
  reachable st →
  rides st !! k = Some ride →
  ∃ ride', rides (run ms st).2 !! k = Some ride' ∧
    rtc lifecycle (status ride) (status ride').
Proof.
  revert st ride. induction ms as [| m ms IH]; intros st ride Hst Hk.
  - exists ride. by split.
  - destruct (dispatch_status st m k ride Hst Hk) as (ride1 & Hk1 & Hmove).
    destruct (IH (dispatch m st).2 ride1) as (ride2 & Hk2 & Hpath);
      [by constructor | done |].
    exists ride2. rewrite run_cons. split; [done |].
    destruct Hmove as [Heq | Hmove].
    + by rewrite <- Heq.
    + by eapply rtc_l.
Qed.

(** C5. Along every execution from the empty registry, a message leaves the
    status of each stored ride as it is or moves it along the lifecycle
    (pending to accepted, accepted to completed, pending to cancelled), over
    any number of messages the status follows a path of the lifecycle, a
    ride that appears is pending, and no stored ride is ever cancelled. *)
Theorem status_follows_lifecycle st :
  reachable st →
  none_cancelled st ∧
  (∀ m k ride, rides st !! k = Some ride →
     ∃ ride', rides (dispatch m st).2 !! k = Some ride' ∧
       (status ride' = status ride ∨ lifecycle (status ride) (status ride'))) ∧
  (∀ m k ride', rides st !! k = None →
     rides (dispatch m st).2 !! k = Some ride' → status ride' = pending) ∧
  (∀ ms k ride, rides st !! k = Some ride →
     ∃ ride', rides (run ms st).2 !! k = Some ride' ∧
       rtc lifecycle (status ride) (status ride')).
Proof.
  intros Hst. split; [| split; [| split]].
  - by apply reachable_none_cancelled.
  - intros m k ride. by apply dispatch_status.
  - intros m k ride' Hk Hk'. step_cases m st; [| | | congruence];
      (put_cases Hk' Hne; [| congruence]).
    + done.
    + congruence.
    + congruence.
  - intros ms k ride. by apply run_status.
Qed.

Lemma status_follows_lifecycle_witness :
  none_cancelled sample_registry ∧
  ∃ ride',
    rides (dispatch (sample_complete "dave" 20%Z 2%N) sample_registry).2 !! 2%N
      = Some ride' ∧
    (status ride' = accepted ∨ lifecycle accepted (status ride')).
Proof.
  destruct (status_follows_lifecycle sample_registry (reachable_run sample_trace))
    as (Hlive & Hstep & _ & _).
  split; [exact Hlive |].
  apply (Hstep (sample_complete "dave" 20%Z 2%N) 2%N sample_ride_2).
  vm_compute. reflexivity.
Defined.

(** C6. In every reachable registry a stored ride has a driver exactly when
    its status is accepted or completed: the empty registry satisfies this,
    and [createRide], [acceptRide] and [completeRide] each keep it. *)
Theorem driver_iff_accepted_or_completed :
  driver_assigned init ∧
  (∀ caller now pickup dropoff price' st,
     driver_assigned st →
     driver_assigned (createRide caller now pickup dropoff price' st).2) ∧
  (∀ caller now k st,
     driver_assigned st → driver_assigned (acceptRide caller now k st).2) ∧
  (∀ caller now k st,
     driver_assigned st → driver_assigned (completeRide caller now k st).2) ∧
  (∀ st, reachable st → driver_assigned st).
Proof.
  split; [| split; [| split; [| split]]].
  - apply driver_assigned_init.
  - intros caller now pickup dropoff price' st.
    apply (driver_assigned_dispatch
             {| msg_caller := caller; msg_time := now;
                msg_call := CreateRide pickup dropoff price' |}).
  - intros caller now k st.
    apply (driver_assigned_dispatch
             {| msg_caller := caller; msg_time := now;
                msg_call := AcceptRide k |}).
  - intros caller now k st.
    apply (driver_assigned_dispatch
             {| msg_caller := caller; msg_time := now;
                msg_call := CompleteRide k |}).
  - apply reachable_driver_assigned.
Qed.

Lemma driver_iff_accepted_or_completed_witness :
  driver_assigned sample_registry ∧
  (driverId sample_ride_1 ≠ None ↔
   status sample_ride_1 = accepted ∨ status sample_ride_1 = completed) ∧
  (driverId sample_ride_3 ≠ None ↔
   status sample_ride_3 = accepted ∨ status sample_ride_3 = completed).
Proof.
  pose proof (proj2 (proj2 (proj2 (proj2 driver_iff_accepted_or_completed)))
                sample_registry (reachable_run sample_trace)) as Hinv.
  split; [exact Hinv | split].
  - apply (Hinv 1%N). vm_compute. reflexivity.
  - apply (Hinv 3%N). vm_compute. reflexivity.
Defined.

(** ** Id allocation *)

Lemma dispatch_nextRideId m st :
  nextRideId (dispatch m st).2 =
  match msg_call m with
  | CreateRide _ _ _ => (nextRideId st + 1)%N
  | _ => nextRideId st
  end.
Proof.
  step_cases m st; try by rewrite Hcall.
  destruct (msg_call m); [by edestruct Hcall | done | done].
Qed.

Lemma run_nextRideId_le ms st :
  (nextRideId st ≤ nextRideId (run ms st).2)%N.
Proof.
  revert st. induction ms as [| m ms IH]; intros st; [done |].
  rewrite run_cons. cbn. etrans; [| apply IH].
  rewrite dispatch_nextRideId. destruct (msg_call m); lia.
Qed.


Lemma createdIds_cons m ms st :
  createdIds (m :: ms) st =
  match created_id m (dispatch m st).1 with
  | Some k => k :: createdIds ms (dispatch m st).2
  | None => createdIds ms (dispatch m st).2
  end.
Proof.
  unfold createdIds. rewrite run_cons. cbn.
  by destruct (created_id m (dispatch m st).1).
Qed.

Lemma created_id_dispatch m st :
  created_id m (dispatch m st).1 =
  match msg_call m with
  | CreateRide _ _ _ => Some (nextRideId st)
  | _ => None
  end.
Proof.
  unfold created_id. step_cases m st.
  - by rewrite Hcall.
  - by rewrite Hcall.
  - by rewrite Hcall.
  - destruct (msg_call m); [by edestruct Hcall | done | done].
Qed.

Lemma createdIds_bounds ms st :
  Forall (λ k, nextRideId st ≤ k < nextRideId (run ms st).2)%N
    (createdIds ms st).
Proof.
  revert st. induction ms as [| m ms IH]; intros st; [constructor |].
  rewrite createdIds_cons, created_id_dispatch, run_cons. cbn.
  specialize (IH (dispatch m st).2).
  pose proof (run_nextRideId_le ms (dispatch m st).2) as Hle.
  rewrite dispatch_nextRideId in IH, Hle.
  destruct (msg_call m).
  - constructor; [lia |]. eapply Forall_impl; [exact IH |].
    cbn. intros k Hk. lia.
  - exact IH.
  - exact IH.
Qed.

Lemma createdIds_sorted ms st : StronglySorted N.lt (createdIds ms st).
Proof.
  revert st. induction ms as [| m ms IH]; intros st; [constructor |].
  rewrite createdIds_cons, created_id_dispatch.
  pose proof (createdIds_bounds ms (dispatch m st).2) as Hb.
  rewrite dispatch_nextRideId in Hb.
  destruct (msg_call m); [| apply IH | apply IH].
  constructor; [apply IH |].
  eapply Forall_impl; [exact Hb |]. cbn. intros k Hk. lia.
Qed.

Lemma createdIds_length ms st :
  nextRideId (run ms st).2 =
  (nextRideId st + N.of_nat (length (createdIds ms st)))%N.
Proof.
  revert st. induction ms as [| m ms IH]; intros st.
  - cbn. lia.
  - rewrite createdIds_cons, created_id_dispatch, run_cons. cbn.
    rewrite IH, dispatch_nextRideId.
    destruct (msg_call m); cbn [length]; lia.
Qed.

Lemma StronglySorted_lt_NoDup (l : list N) : StronglySorted N.lt l → NoDup l.
Proof.
  induction 1 as [| k l _ IH Hall]; constructor; [| done].
  intros Hin. rewrite Forall_forall in Hall. specialize (Hall k Hin). lia.
Qed.

(** C7. The ids returned by the [createRide] calls of an execution from the
    empty registry are strictly increasing in the order of the calls, hence
    pairwise distinct; an id handed out is not in use before the call; the
    counter starts at 1, every [createRide] adds one to it and returns its
    previous value, and no message decreases it. *)
Theorem createRide_ids_increasing (ms : list Message) :
  StronglySorted N.lt (createdIds ms init) ∧
  NoDup (createdIds ms init) ∧
  nextRideId init = 1%N ∧
  nextRideId (run ms init).2 =
    (1 + N.of_nat (length (createdIds ms init)))%N ∧
  (∀ caller now pickup dropoff price' st,
     ∃ ride st',
       createRide caller now pickup dropoff price' st = (ok ride, st') ∧
       id ride = nextRideId st ∧
       nextRideId st' = (nextRideId st + 1)%N) ∧
  (∀ m st, (nextRideId st ≤ nextRideId (dispatch m st).2)%N) ∧
  (∀ m st k, reachable st →
     created_id m (dispatch m st).1 = Some k → rides st !! k = None).
Proof.
  split; [| split; [| split; [| split; [| split; [| split]]]]].
  - apply createdIds_sorted.
  - apply StronglySorted_lt_NoDup, createdIds_sorted.
  - reflexivity.
  - apply (createdIds_length ms init).
  - intros caller now pickup dropoff price' st.
    eexists _, _. rewrite createRide_eq. by cbn.
  - intros m st. rewrite dispatch_nextRideId. destruct (msg_call m); lia.
  - intros m st k Hst. rewrite created_id_dispatch.
    destruct (msg_call m); [| done | done].
    intros [= <-]. by apply reachable_fresh.
Qed.

(** C8. [createRide] always succeeds: it takes the next id, stores under it
    a pending ride of the caller without driver, with the given locations
    and price and both timestamps at the current time, and returns that
    ride; so a ride created by P from (6.5, 3.3) to (5.0, 7.5) for 12.5 is
    read back by [getRide] with passenger P, no driver, status pending and
    price 12.5. *)
Theorem createRide_succeeds :
  (∀ caller now pickup dropoff price' st,
     ∃ ride st',
       createRide caller now pickup dropoff price' st = (ok ride, st') ∧
       id ride = nextRideId st ∧
       passengerId ride = caller ∧
       driverId ride = None ∧
       pickupLocation ride = pickup ∧
       dropoffLocation ride = dropoff ∧
       status ride = pending ∧
       price ride = price' ∧
       createdAt ride = now ∧
       updatedAt ride = now ∧
       nextRideId st' = (nextRideId st + 1)%N ∧
       rides st' = <[nextRideId st := ride]> (rides st) ∧
       getRide (id ride) st' = Some ride) ∧
  (∀ P now st,
     ∃ ride st' ride',
       createRide P now
         {| latitude := float_6_5; longitude := float_3_3 |}
         {| latitude := float_5_0; longitude := float_7_5 |}
         float_12_5 st = (ok ride, st') ∧
       getRide (id ride) st' = Some ride' ∧
       passengerId ride' = P ∧
       driverId ride' = None ∧
       status ride' = pending ∧
       price ride' = float_12_5).
Proof.
  split.
  - intros caller now pickup dropoff price' st.
    eexists _, _. rewrite createRide_eq. cbn.
    repeat split. unfold getRide, rides_get. cbn. apply lookup_insert_eq.
  - intros P now st. eexists _, _, _. rewrite createRide_eq. cbn.
    split; [reflexivity |].
    split; [cbn; apply lookup_insert_eq | done].
Qed.

(** ** Listing queries *)

Lemma collect_filter keep vals :
  collect keep vals = filter (λ ride, keep ride = true) vals.
Proof.
  unfold collect.
  enough (∀ buffer,
    foldl (λ buffer ride, if keep ride then buffer ++ [ride] else buffer)
      buffer vals = buffer ++ filter (λ ride, keep ride = true) vals) as Hgen
    by apply (Hgen []).
  induction vals as [| ride vals IH]; intros buffer; cbn [foldl].
  - by rewrite filter_nil, app_nil_r.
  - rewrite IH, filter_cons. destruct (keep ride) eqn:Hkeep.
    + rewrite decide_True by done. by rewrite <- app_assoc.
    + rewrite decide_False by done. done.
Qed.

Lemma reachable_vals_NoDup st : reachable st → NoDup (rides_vals st).1.
Proof.
  intros Hst. destruct (reachable_ids_allocated st Hst) as [_ Hids].
  unfold rides_vals. cbn. apply NoDup_fmap_2_strong.
  - intros [k1 r1] [k2 r2] H1 H2 Heq. cbn in Heq. subst r2.
    apply elem_of_map_to_list in H1, H2.
    destruct (Hids _ _ H1) as [<- _]. by destruct (Hids _ _ H2) as [<- _].
  - apply NoDup_map_to_list.
Qed.

(** C10. [getAvailableRides] returns exactly the stored rides whose status
    is pending: a ride is in the result if and only if it is stored and
    pending; the order in which the map enumerates its values changes the
    result by a permutation only; in a reachable registry no ride is listed
    twice. *)
Theorem getAvailableRides_exact st :
  (∀ ride, ride ∈ getAvailableRides st ↔
     status ride = pending ∧ ∃ k, rides st !! k = Some ride) ∧
  (∀ vals, vals ≡ₚ (rides_vals st).1 →
     collect (λ ride, bool_decide (status ride = pending)) vals
       ≡ₚ getAvailableRides st) ∧
  (reachable st → NoDup (getAvailableRides st)).
Proof.
  unfold getAvailableRides. split; [| split].
  - intros ride. rewrite collect_filter, list_elem_of_filter.
    rewrite bool_decide_eq_true. unfold rides_vals. cbn.
    rewrite list_elem_of_fmap. split.
    + intros [Hs ([k r] & -> & Hin)]. split; [done |].
      exists k. by apply elem_of_map_to_list.
    + intros [Hs [k Hk]]. split; [done |].
      exists (k, ride). split; [done |]. by apply elem_of_map_to_list.
  - intros vals Hperm. rewrite !collect_filter. by rewrite Hperm.
  - intros Hst. rewrite collect_filter.
    apply NoDup_filter. by apply reachable_vals_NoDup.
Qed.

Lemma getAvailableRides_exact_witness :
  sample_ride_1 ∈ getAvailableRides sample_registry ∧
  (sample_ride_2 ∉ getAvailableRides sample_registry) ∧
  NoDup (getAvailableRides sample_registry).
Proof.
  destruct (getAvailableRides_exact sample_registry) as (Hiff & _ & Hnodup).
  split; [| split].
  - apply Hiff. split; [reflexivity |]. exists 1%N. vm_compute. reflexivity.
  - intros Hin. apply Hiff in Hin as [Hs _]. discriminate.
  - apply Hnodup. apply (reachable_run sample_trace).
Defined.

(** ** Timestamps *)

Lemma dispatch_stamped t m st :
  stamped t st → (t ≤ msg_time m)%Z → stamped (msg_time m) (dispatch m st).2.
Proof.
  intros Hinv Hle. step_cases m st; intros k ride Hk.
  - put_cases Hk Hne; [cbn; lia |]. specialize (Hinv _ _ Hk). lia.
  - put_cases Hk Hne; [cbn |]; [specialize (Hinv _ _ Hk0) |
                                specialize (Hinv _ _ Hk)]; lia.
  - put_cases Hk Hne; [cbn |]; [specialize (Hinv _ _ Hk0) |
                                specialize (Hinv _ _ Hk)]; lia.
  - specialize (Hinv _ _ Hk). lia.
Qed.

Lemma clock_increasing_cons m ms :
  clock_increasing (m :: ms) →
  clock_increasing ms ∧ Forall (λ m', msg_time m ≤ msg_time m')%Z ms.
Proof.
  unfold clock_increasing. rewrite fmap_cons. intros Hsorted.
  apply StronglySorted_inv in Hsorted as [Htail Hhead]. split; [done |].
  rewrite Forall_fmap in Hhead. eapply Forall_impl; [exact Hhead |].
  cbn. intros m' Hlt. lia.
Qed.

Lemma clock_increasing_snoc ms m :
  clock_increasing (ms ++ [m]) →
  ∀ t, t ∈ msg_time <$> ms → (t < msg_time m)%Z.
Proof.
  unfold clock_increasing. induction ms as [| m' ms IH]; intros Hsorted t Hin.
  - by apply elem_of_nil in Hin.
  - rewrite <- app_comm_cons, fmap_cons in Hsorted.
    apply StronglySorted_inv in Hsorted as [Htail Hhead].
    rewrite fmap_cons in Hin. apply elem_of_cons in Hin as [-> | Hin].
    + rewrite Forall_forall in Hhead. apply Hhead.
      rewrite fmap_app. apply elem_of_app. right. cbn. apply list_elem_of_here.
    + by apply IH.
Qed.

Lemma run_stamped ms st t :
  stamped t st →
  clock_increasing ms →
  Forall (λ m, t ≤ msg_time m)%Z ms →
  ∃ t', stamped t' (run ms st).2 ∧ (t' = t ∨ t' ∈ msg_time <$> ms).
Proof.
  revert st t. induction ms as [| m ms IH]; intros st t Hinv Hclock Hafter.
  - exists t. split; [done | by left].
  - apply clock_increasing_cons in Hclock as [Hclock Hhead].
    apply Forall_cons in Hafter as [Hm _].
    destruct (IH (dispatch m st).2 (msg_time m)) as (t' & Hinv' & Ht');
      [by apply (dispatch_stamped t) | done | done |].
    exists t'. rewrite run_cons. split; [done |]. right.
    rewrite fmap_cons. destruct Ht' as [-> | Hin].
    + apply list_elem_of_here.
    + by apply list_elem_of_further.
Qed.

Lemma init_stamped t : stamped t init.
Proof. intros k ride Hk. cbn in Hk. by rewrite lookup_empty in Hk. Qed.

Lemma clock_increasing_after_head ms :
  clock_increasing ms →
  ∃ t, Forall (λ m, t ≤ msg_time m)%Z ms.
Proof.
  destruct ms as [| m ms]; intros Hclock.
  - by exists 0%Z.
  - exists (msg_time m). apply clock_increasing_cons in Hclock as [_ Hhead].
    by constructor.
Qed.

(** C9. When successive clock readings strictly increase, every ride stored
    in a registry reached from the empty one has [updatedAt ≥ createdAt],
    and an [acceptRide] or [completeRide] that succeeds on a ride stores it
    with a strictly greater [updatedAt]. *)
Theorem updatedAt_increases ms :
  clock_increasing ms →
  (∀ k ride, rides (run ms init).2 !! k = Some ride →
     (createdAt ride ≤ updatedAt ride)%Z) ∧
  (∀ m k ride ride' st',
     clock_increasing (ms ++ [m]) →
     msg_call m = AcceptRide k ∨ msg_call m = CompleteRide k →
     rides (run ms init).2 !! k = Some ride →
     dispatch m (run ms init).2 = (ok ride', st') →
     rides st' !! k = Some ride' ∧ (updatedAt ride < updatedAt ride')%Z).
Proof.
  intros Hclock. split.
  - intros k ride Hk.
    destruct (clock_increasing_after_head ms Hclock) as [t Hafter].
    destruct (run_stamped ms init t (init_stamped t) Hclock Hafter)
      as (t' & Hinv & _).
    specialize (Hinv _ _ Hk). lia.
  - intros m k ride ride' st' Hclock' Hcall' Hk Hrun.
    assert (∃ t', stamped t' (run ms init).2 ∧ (t' < msg_time m)%Z)
      as (t' & Hinv & Hlt).
    { destruct ms as [| m0 ms0].
      - exists (msg_time m - 1)%Z. split; [apply init_stamped | lia].
      - destruct (clock_increasing_after_head _ Hclock) as [t Hafter].
        apply clock_increasing_cons in Hclock as Hhead.
        destruct (run_stamped (m0 :: ms0) init (msg_time m0)
                    (init_stamped _) Hclock) as (t' & Hinv & Ht').
        { constructor; [lia | apply Hhead]. }
        exists t'. split; [done |].
        apply (clock_increasing_snoc _ _ Hclock').
        destruct Ht' as [-> | Hin]; [| done].
        rewrite fmap_cons. apply list_elem_of_here. }
    specialize (Hinv _ _ Hk).
    pose proof (dispatch_step m (run ms init).2) as Hstep.
    rewrite Hrun in Hstep.
    inversion Hstep as [pickup dropoff price' Hcall new
                       | k0 ride0 Hcall Hk0 Hs0 new
                       | k0 ride0 Hcall Hk0 Hd0 new
                       | ]; subst.
    + destruct Hcall'; congruence.
    + assert (k0 = k) as -> by (destruct Hcall'; congruence).
      rewrite Hk in Hk0. injection Hk0 as <-. cbn.
      rewrite lookup_insert_eq. split; [done | cbn; lia].
    + assert (k0 = k) as -> by (destruct Hcall'; congruence).
      rewrite Hk in Hk0. injection Hk0 as <-. cbn.
      rewrite lookup_insert_eq. split; [done | cbn; lia].
Qed.

Lemma updatedAt_increases_witness :
  (createdAt sample_ride_3 ≤ updatedAt sample_ride_3)%Z ∧
  ∃ ride' st',
    acceptRide "dave" 20%Z 1%N sample_registry = (ok ride', st') ∧
    rides st' !! 1%N = Some ride' ∧
    (updatedAt sample_ride_1 < updatedAt ride')%Z.
Proof.
  assert (clock_increasing sample_trace) as Hclock.
  { unfold clock_increasing. cbn. repeat constructor. }
  destruct (updatedAt_increases sample_trace Hclock) as [Hle Hlt].
  split.
  - apply (Hle 3%N). vm_compute. reflexivity.
  - eexists _, _. split; [vm_compute; reflexivity |].
    apply (Hlt (sample_accept "dave" 20%Z 1%N) 1%N sample_ride_1).
    + unfold clock_increasing. cbn. repeat constructor.
    + by left.
    + vm_compute. reflexivity.
    + vm_compute. reflexivity.
Defined.

(** ** Further properties of the registry *)

(** *** The ids in use *)





(** *** The listings by passenger and by driver *)

Lemma collect_vals_elem keep st ride :
  ride ∈ collect keep (rides_vals st).1 ↔
  keep ride = true ∧ ∃ k, rides st !! k = Some ride.
Proof.
  rewrite collect_filter, list_elem_of_filter. unfold rides_vals. cbn.
  rewrite list_elem_of_fmap. split.
  - intros [Hkeep ([k r] & -> & Hin)]. split; [done |].
    exists k. by apply elem_of_map_to_list.
  - intros [Hkeep [k Hk]]. split; [done |].
    exists (k, ride). split; [done |]. by apply elem_of_map_to_list.
Qed.

Lemma collect_vals_NoDup keep st :
  reachable st → NoDup (collect keep (rides_vals st).1).
Proof.
  intros Hst. rewrite collect_filter.
  apply NoDup_filter. by apply reachable_vals_NoDup.
Qed.

(** X2. [getPassengerRides p] returns exactly the stored rides whose
    passenger is [p]: nothing for a passenger without rides, in particular
    on the empty registry, and no ride twice in a reachable registry. *)
Theorem getPassengerRides_exact p st :
  (∀ ride, ride ∈ getPassengerRides p st ↔
     passengerId ride = p ∧ ∃ k, rides st !! k = Some ride) ∧
  ((∀ k ride, rides st !! k = Some ride → passengerId ride ≠ p) →
   getPassengerRides p st = []) ∧
  getPassengerRides p init = [] ∧
  (reachable st → NoDup (getPassengerRides p st)).
Proof.
  assert (∀ ride, ride ∈ getPassengerRides p st ↔
            passengerId ride = p ∧ ∃ k, rides st !! k = Some ride) as Hiff.
  { intros ride. unfold getPassengerRides.
    by rewrite collect_vals_elem, bool_decide_eq_true. }
  split; [done |]. split; [| split].
  - intros Hnone. apply elem_of_nil_inv. intros ride Hin.
    apply Hiff in Hin as [Hp [k Hk]]. by apply (Hnone k ride).
  - reflexivity.
  - apply collect_vals_NoDup.
Qed.

Lemma getPassengerRides_exact_witness :
  sample_ride_2 ∈ getPassengerRides "bob" sample_registry ∧
  getPassengerRides "dave" sample_registry = [] ∧
  NoDup (getPassengerRides "bob" sample_registry).
Proof.
  split; [| split].
  - apply (getPassengerRides_exact "bob" sample_registry).
    split; [reflexivity |]. exists 2%N. vm_compute. reflexivity.
  - apply (proj1 (proj2 (getPassengerRides_exact "dave" sample_registry))).
    rewrite (proj1 sample_registry_rides). intros k ride Hk.
    apply elem_of_list_to_map_2 in Hk.
    repeat (apply elem_of_cons in Hk as [[= -> ->] | Hk]; [discriminate |]).
    by apply elem_of_nil in Hk.
  - apply (getPassengerRides_exact "bob" sample_registry).
    apply (reachable_run sample_trace).
Defined.

(** X3. [getDriverRides d] returns exactly the stored rides whose driver is
    [d]; a ride without driver is in no driver's list; no ride is listed
    twice in a reachable registry. *)
Theorem getDriverRides_exact d st :
  (∀ ride, ride ∈ getDriverRides d st ↔
     driverId ride = Some d ∧ ∃ k, rides st !! k = Some ride) ∧
  (∀ ride, driverId ride = None → ride ∉ getDriverRides d st) ∧
  getDriverRides d init = [] ∧
  (reachable st → NoDup (getDriverRides d st)).
Proof.
  assert (∀ ride, ride ∈ getDriverRides d st ↔
            driverId ride = Some d ∧ ∃ k, rides st !! k = Some ride) as Hiff.
  { intros ride. unfold getDriverRides. rewrite collect_vals_elem.
    destruct (driverId ride) as [d' |].
    - rewrite bool_decide_eq_true. split; intros [Hd Hk]; split; congruence.
    - split; intros [Hd Hk]; discriminate. }
  split; [done |]. split; [| split].
  - intros ride Hnone Hin. apply Hiff in Hin as [Hd _]. congruence.
  - reflexivity.
  - apply collect_vals_NoDup.
Qed.

Lemma getDriverRides_exact_witness :
  sample_ride_3 ∈ getDriverRides "erin" sample_registry ∧
  (sample_ride_1 ∉ getDriverRides "erin" sample_registry) ∧
  NoDup (getDriverRides "erin" sample_registry).
Proof.
  split; [| split].
  - apply (getDriverRides_exact "erin" sample_registry).
    split; [reflexivity |]. exists 3%N. vm_compute. reflexivity.
  - apply (getDriverRides_exact "erin" sample_registry). reflexivity.
  - apply (getDriverRides_exact "erin" sample_registry).
    apply (reachable_run sample_trace).
Defined.

(** X4. In a reachable registry every stored ride is in exactly one place:
    either it is pending, listed by [getAvailableRides] and by no
    [getDriverRides d], or it is not pending, not listed as available and
    listed by [getDriverRides d] for its driver [d] and no other. *)
Theorem available_or_assigned st k ride :
  reachable st →
  rides st !! k = Some ride →
  (ride ∈ getAvailableRides st ∧ ∀ d, ride ∉ getDriverRides d st) ∨
  ((ride ∉ getAvailableRides st) ∧
   ∃ d, ride ∈ getDriverRides d st ∧
        ∀ d', ride ∈ getDriverRides d' st → d' = d).
Proof.
  intros Hst Hk.
  pose proof (reachable_driver_assigned st Hst k ride Hk) as Hdrv.
  assert (∀ d, ride ∈ getDriverRides d st ↔ driverId ride = Some d) as Hin.
  { intros d. unfold getDriverRides. rewrite collect_vals_elem.
    destruct (driverId ride) as [d' |].
    - rewrite bool_decide_eq_true. split; [intros [-> _]; done |].
      intros [= ->]. split; [done | by exists k].
    - split; [intros [? _]; discriminate | discriminate]. }
  assert (ride ∈ getAvailableRides st ↔ status ride = pending) as Hav.
  { unfold getAvailableRides. rewrite collect_vals_elem, bool_decide_eq_true.
    split; [by intros [? _] | intros ?; split; [done | by exists k]]. }
  destruct (decide (status ride = pending)) as [Hs | Hs].
  - left. split; [by apply Hav |]. intros d Hd. apply Hin in Hd.
    assert (driverId ride ≠ None) as Hsome by (by rewrite Hd).
    apply Hdrv in Hsome as [? | ?]; congruence.
  - right. split; [by rewrite Hav |].
    destruct (driverId ride) as [d |] eqn:Hd.
    + exists d. split; [by apply Hin |].
      intros d' Hd'. apply Hin in Hd'. congruence.
    + pose proof (reachable_none_cancelled st Hst k ride Hk) as Hlive.
      destruct Hdrv as [_ Hdrv]. exfalso. apply Hdrv; [| done].
      destruct (status ride); by auto.
Qed.

Lemma available_or_assigned_witness :
  (sample_ride_1 ∈ getAvailableRides sample_registry ∧
   ∀ d, sample_ride_1 ∉ getDriverRides d sample_registry) ∨
  ((sample_ride_1 ∉ getAvailableRides sample_registry) ∧
   ∃ d, sample_ride_1 ∈ getDriverRides d sample_registry ∧
        ∀ d', sample_ride_1 ∈ getDriverRides d' sample_registry → d' = d).
Proof.
  apply (available_or_assigned sample_registry 1%N sample_ride_1).
  - apply (reachable_run sample_trace).
  - vm_compute. reflexivity.
Defined.

(** *** What a ride keeps for its whole life *)

Lemma same_request_refl ride : same_request ride ride.
Proof. by repeat split. Qed.

Lemma same_request_trans r1 r2 r3 :
  same_request r1 r2 → same_request r2 r3 → same_request r1 r3.
Proof.
  unfold same_request. intros (? & ? & ? & ? & ? & ?) (? & ? & ? & ? & ? & ?).
  repeat split; congruence.
Qed.

(** One message: the ride stays, with the same request data, and a driver
    once recorded stays recorded. *)
Lemma dispatch_keeps st m k ride :
  reachable st →
  rides st !! k = Some ride →
  ∃ ride', rides (dispatch m st).2 !! k = Some ride' ∧
    same_request ride ride' ∧
    (∀ d, driverId ride = Some d → driverId ride' = Some d).
Proof.
  intros Hst Hk. step_cases m st.
  - exists ride. rewrite lookup_insert_ne.
    + split; [done |]. split; [apply same_request_refl | done].
    + intros Heq. rewrite <- Heq, reachable_fresh in Hk; done.
  - destruct (decide (k0 = k)) as [Heq | Hne].
    + subst k0. rewrite Hk0 in Hk. injection Hk as <-.
      exists new. rewrite lookup_insert_eq. split; [done |].
      split; [by repeat split |]. intros d Hd.
      assert (driverId ride0 ≠ None) as Hsome by (by rewrite Hd).
      apply (reachable_driver_assigned st Hst k ride0 Hk0) in Hsome
        as [? | ?]; congruence.
    + exists ride. rewrite lookup_insert_ne by done.
      split; [done |]. split; [apply same_request_refl | done].
  - destruct (decide (k0 = k)) as [Heq | Hne].
    + subst k0. rewrite Hk0 in Hk. injection Hk as <-.
      exists new. rewrite lookup_insert_eq. split; [done |].
      split; [by repeat split | done].
    + exists ride. rewrite lookup_insert_ne by done.
      split; [done |]. split; [apply same_request_refl | done].
  - exists ride. split; [done |]. split; [apply same_request_refl | done].
Qed.

Lemma run_keeps ms st k ride :
  reachable st →
  rides st !! k = Some ride →
  ∃ ride', rides (run ms st).2 !! k = Some ride' ∧
    same_request ride ride' ∧
    (∀ d, driverId ride = Some d → driverId ride' = Some d).
Proof.
  revert st ride. induction ms as [| m ms IH]; intros st ride Hst Hk.
  - exists ride. split; [done |]. split; [apply same_request_refl | done].
  - destruct (dispatch_keeps st m k ride Hst Hk) as (r1 & Hk1 & Hsame1 & Hd1).
    destruct (IH (dispatch m st).2 r1) as (r2 & Hk2 & Hsame2 & Hd2);
      [by constructor | done |].
    exists r2. rewrite run_cons. split; [done |].
    split; [by eapply same_request_trans | auto].
Qed.

(** X5. Whatever messages follow, a ride stored in a reachable registry is
    never removed and keeps its id, passenger, pickup and dropoff locations,
    price and creation time. *)
Theorem ride_request_immutable ms st k ride :
  reachable st →
  rides st !! k = Some ride →
  ∃ ride', getRide k (run ms st).2 = Some ride' ∧
    id ride' = id ride ∧
    passengerId ride' = passengerId ride ∧
    pickupLocation ride' = pickupLocation ride ∧
    dropoffLocation ride' = dropoffLocation ride ∧
    price ride' = price ride ∧
    createdAt ride' = createdAt ride.
Proof.
  intros Hst Hk.
  destruct (run_keeps ms st k ride Hst Hk) as (ride' & Hk' & Hsame & _).
  by exists ride'.
Qed.

Lemma ride_request_immutable_witness :
  ∃ ride',
    getRide 1%N
      (run [sample_accept "dave" 20%Z 1%N; sample_complete "dave" 21%Z 1%N]
         sample_registry).2 = Some ride' ∧
    id ride' = 1%N ∧
    passengerId ride' = "alice" ∧
    pickupLocation ride' = sample_pickup ∧
    dropoffLocation ride' = sample_dropoff ∧
    price ride' = float_12_5 ∧
    createdAt ride' = 10%Z.
Proof.
  apply (ride_request_immutable
           [sample_accept "dave" 20%Z 1%N; sample_complete "dave" 21%Z 1%N]
           sample_registry 1%N sample_ride_1).
  - apply (reachable_run sample_trace).
  - vm_compute. reflexivity.
Defined.

(** X6. Once a driver is recorded on a ride of a reachable registry, the
    ride keeps that driver through every later message: no other caller can
    take the ride over. *)
Theorem driver_never_replaced ms st k ride d :
  reachable st →
  rides st !! k = Some ride →
  driverId ride = Some d →
  ∃ ride', getRide k (run ms st).2 = Some ride' ∧ driverId ride' = Some d.
Proof.
  intros Hst Hk Hd.
  destruct (run_keeps ms st k ride Hst Hk) as (ride' & Hk' & _ & Hkeep).
  exists ride'. split; [done | by apply Hkeep].
Qed.

Lemma driver_never_replaced_witness :
  ∃ ride',
    getRide 2%N
      (run [sample_accept "erin" 20%Z 2%N; sample_complete "dave" 21%Z 2%N;
            sample_accept "alice" 22%Z 2%N] sample_registry).2 = Some ride' ∧
    driverId ride' = Some "dave".
Proof.
  apply (driver_never_replaced
           [sample_accept "erin" 20%Z 2%N; sample_complete "dave" 21%Z 2%N;
            sample_accept "alice" 22%Z 2%N]
           sample_registry 2%N sample_ride_2 "dave").
  - apply (reachable_run sample_trace).
  - vm_compute. reflexivity.
  - reflexivity.
Defined.

(** *** Statuses never go back *)

Lemma lifecycle_not_pending s s' : rtc lifecycle s s' → s ≠ pending → s' ≠ pending.
Proof.
  induction 1 as [| s1 s2 s3 Hmove _ IH]; [done |].
  intros _. apply IH. by destruct Hmove.
Qed.

Lemma lifecycle_completed s' : rtc lifecycle completed s' → s' = completed.
Proof.
  intros Hpath. apply rtc_inv in Hpath as [<- | (s & Hmove & _)]; [done |].
  inversion Hmove.
Qed.

(** X7. A ride of a reachable registry that is no longer pending is never
    pending again: every later [acceptRide] on it, by any caller, is
    answered "Ride is not available for acceptance" and changes nothing.
    So of two drivers accepting the same ride one after the other, only the
    first succeeds. *)
Theorem acceptRide_only_once ms st k ride caller now :
  reachable st →
  rides st !! k = Some ride →
  status ride ≠ pending →
  acceptRide caller now k (run ms st).2 =
  (err "Ride is not available for acceptance", (run ms st).2).
Proof.
  intros Hst Hk Hs.
  destruct (run_status ms st k ride Hst Hk) as (ride' & Hk' & Hpath).
  apply (acceptRide_unavailable _ _ _ _ ride'); [done |].
  by eapply lifecycle_not_pending.
Qed.

Lemma acceptRide_only_once_witness :
  acceptRide "erin" 30%Z 1%N
    (run [sample_accept "dave" 20%Z 1%N] sample_registry).2 =
  (err "Ride is not available for acceptance",
   (run [sample_accept "dave" 20%Z 1%N] sample_registry).2).
Proof.
  apply (acceptRide_only_once [] (run [sample_accept "dave" 20%Z 1%N] sample_registry).2
           1%N (accepted_by "dave" 20%Z sample_ride_1)).
  - apply reachable_run_from. apply (reachable_run sample_trace).
  - vm_compute. reflexivity.
  - discriminate.
Defined.

(** X8. A completed ride of a reachable registry stays completed through
    every later message. *)
Theorem completed_is_final ms st k ride :
  reachable st →
  rides st !! k = Some ride →
  status ride = completed →
  ∃ ride', getRide k (run ms st).2 = Some ride' ∧ status ride' = completed.
Proof.
  intros Hst Hk Hs.
  destruct (run_status ms st k ride Hst Hk) as (ride' & Hk' & Hpath).
  exists ride'. split; [done |].
  rewrite Hs in Hpath. by apply lifecycle_completed.
Qed.

Lemma completed_is_final_witness :
  ∃ ride',
    getRide 3%N
      (run [sample_accept "dave" 20%Z 3%N; sample_complete "erin" 21%Z 3%N]
         sample_registry).2 = Some ride' ∧
    status ride' = completed.
Proof.
  apply (completed_is_final
           [sample_accept "dave" 20%Z 3%N; sample_complete "erin" 21%Z 3%N]
           sample_registry 3%N sample_ride_3).
  - apply (reachable_run sample_trace).
  - vm_compute. reflexivity.
  - reflexivity.
Defined.

(** *** When the updates succeed *)

(** X9. [acceptRide] succeeds exactly on the stored pending rides and
    [completeRide] exactly on the stored rides whose driver is the caller;
    in a reachable registry a pending ride therefore cannot be completed by
    anyone: the accept step cannot be skipped. *)
Theorem updates_succeed_iff caller now k st :
  ((∃ ride', (acceptRide caller now k st).1 = ok ride') ↔
   ∃ ride, rides st !! k = Some ride ∧ status ride = pending) ∧
  ((∃ ride', (completeRide caller now k st).1 = ok ride') ↔
   ∃ ride, rides st !! k = Some ride ∧ driverId ride = Some caller) ∧
  (reachable st →
   ∀ ride, rides st !! k = Some ride → status ride = pending →
     completeRide caller now k st =
     (err "Only the assigned driver can complete the ride", st)).
Proof.
  split; [| split].
  - split.
    + intros [ride' Hok]. destruct (rides st !! k) as [ride |] eqn:Hk.
      * destruct (decide (status ride = pending)) as [Hs | Hs]; [by exists ride |].
        by rewrite (acceptRide_unavailable _ _ _ _ _ Hk Hs) in Hok.
      * by rewrite (acceptRide_missing _ _ _ _ Hk) in Hok.
    + intros (ride & Hk & Hs). eexists.
      by rewrite (acceptRide_available _ _ _ _ _ Hk Hs).
  - split.
    + intros [ride' Hok]. destruct (rides st !! k) as [ride |] eqn:Hk.
      * destruct (decide (driverId ride = Some caller)) as [Hd | Hd];
          [by exists ride |].
        by rewrite (completeRide_other _ _ _ _ _ Hk Hd) in Hok.
      * by rewrite (completeRide_missing _ _ _ _ Hk) in Hok.
    + intros (ride & Hk & Hd). eexists.
      by rewrite (completeRide_driver _ _ _ _ _ Hk Hd).
  - intros Hst ride Hk Hs. apply (completeRide_other _ _ _ _ ride Hk).
    intros Hd. assert (driverId ride ≠ None) as Hsome by (by rewrite Hd).
    apply (reachable_driver_assigned st Hst k ride Hk) in Hsome as [? | ?];
      congruence.
Qed.

Lemma updates_succeed_iff_witness :
  (∃ ride', (acceptRide "dave" 20%Z 1%N sample_registry).1 = ok ride') ∧
  (∃ ride', (completeRide "dave" 20%Z 2%N sample_registry).1 = ok ride') ∧
  completeRide "alice" 20%Z 1%N sample_registry =
  (err "Only the assigned driver can complete the ride", sample_registry).
Proof.
  split; [| split].
  - apply (updates_succeed_iff "dave" 20%Z 1%N sample_registry).
    exists sample_ride_1. split; [vm_compute |]; reflexivity.
  - apply (proj1 (proj2 (updates_succeed_iff "dave" 20%Z 2%N sample_registry))).
    exists sample_ride_2. split; [vm_compute |]; reflexivity.
  - apply (proj2 (proj2 (updates_succeed_iff "alice" 20%Z 1%N sample_registry))
             (reachable_run sample_trace) sample_ride_1).
    + vm_compute. reflexivity.
    + reflexivity.
Defined.

(** X10. Whatever the message, an error reply leaves the registry exactly as
    it was, and in a reachable registry the ride returned by a successful
    update is the one [getRide] then finds under the returned ride's id. *)
Theorem reply_matches_registry m st :
  (∀ e, (dispatch m st).1 = err e → (dispatch m st).2 = st) ∧
  (reachable st →
   ∀ ride, (dispatch m st).1 = ok ride →
     getRide (id ride) (dispatch m st).2 = Some ride).
Proof.
  split.
  - intros e0 Herr. by step_cases m st.
  - intros Hst ride Hok. destruct (reachable_ids_allocated st Hst) as [_ Hids].
    unfold getRide, rides_get. cbn [fst].
    step_cases m st; [| | | done]; injection Hok as <-; cbn.
    + apply lookup_insert_eq.
    + destruct (Hids _ _ Hk0) as [-> _]. apply lookup_insert_eq.
    + destruct (Hids _ _ Hk0) as [-> _]. apply lookup_insert_eq.
Qed.

Lemma reply_matches_registry_witness :
  getRide 1%N (dispatch (sample_accept "dave" 20%Z 1%N) sample_registry).2 =
    Some (accepted_by "dave" 20%Z sample_ride_1) ∧
  (dispatch (sample_accept "dave" 20%Z 3%N) sample_registry).2 = sample_registry.
Proof.
  split.
  - apply (proj2 (reply_matches_registry (sample_accept "dave" 20%Z 1%N)
                    sample_registry) (reachable_run sample_trace)
             (accepted_by "dave" 20%Z sample_ride_1)).
    vm_compute. reflexivity.
  - apply (proj1 (reply_matches_registry (sample_accept "dave" 20%Z 3%N)
                    sample_registry) "Ride is not available for acceptance").
    vm_compute. reflexivity.
Defined.

(** *** The ids handed out and the ids stored *)



(** *** A whole ride *)

Lemma collect_put_fresh keep k ride st :
  rides st !! k = None →
  collect keep (rides_vals (with_ride k ride st)).1 ≡ₚ
  (if keep ride then [ride] else []) ++ collect keep (rides_vals st).1.
Proof.
  intros Hk. rewrite !collect_filter. unfold rides_vals, with_ride. cbn.
  rewrite (map_to_list_insert _ _ _ Hk), fmap_cons, filter_cons. cbn.
  by destruct (keep ride).
Qed.

(** X12. From any registry, a ride created by [P], then accepted and then
    completed by [D] under the id that [createRide] returned, goes through
    without error: the new ride is listed as available and among the rides
    of [P], after the accept it is listed among the rides of [D] with status
    accepted, and at the end [getRide] shows it completed with driver [D],
    passenger [P], creation time that of the first call and update time
    that of the last. If the registry is reachable and [D] had no ride
    before, the accepted ride is the only ride of [D]. *)
Theorem create_accept_complete P D t1 t2 t3 pickup dropoff price' st :
  ∃ r1 st1 r2 st2 r3 st3,
    createRide P t1 pickup dropoff price' st = (ok r1, st1) ∧
    acceptRide D t2 (id r1) st1 = (ok r2, st2) ∧
    completeRide D t3 (id r1) st2 = (ok r3, st3) ∧
    r1 ∈ getAvailableRides st1 ∧
    r1 ∈ getPassengerRides P st1 ∧
    r2 ∈ getDriverRides D st2 ∧
    status r2 = accepted ∧
    getRide (id r1) st3 = Some r3 ∧
    status r3 = completed ∧
    driverId r3 = Some D ∧
    passengerId r3 = P ∧
    createdAt r3 = t1 ∧
    updatedAt r3 = t3 ∧
    (reachable st → getDriverRides D st = [] → getDriverRides D st2 = [r2]).
Proof.
  set (k := nextRideId st).
  set (r1 := created_by P t1 k pickup dropoff price').
  set (st1 := {| nextRideId := (k + 1)%N; rides := <[k := r1]> (rides st) |}).
  set (r2 := accepted_by D t2 r1).
  set (r3 := completed_at t3 r2).
  assert (rides st1 !! k = Some r1) as Hk1 by apply lookup_insert_eq.
  assert (rides (with_ride k r2 st1) !! k = Some r2) as Hk2
    by apply lookup_insert_eq.
  exists r1, st1, r2, (with_ride k r2 st1), r3,
    (with_ride k r3 (with_ride k r2 st1)).
  split; [apply createRide_eq |].
  split; [by apply acceptRide_available |].
  split; [by apply completeRide_driver |].
  split; [unfold getAvailableRides; apply collect_vals_elem; eauto |].
  split; [unfold getPassengerRides; apply collect_vals_elem;
          split; [by apply bool_decide_eq_true | eauto] |].
  assert (r2 ∈ getDriverRides D (with_ride k r2 st1)) as Hin.
  { unfold getDriverRides. apply collect_vals_elem.
    split; [by apply bool_decide_eq_true | eauto]. }
  split; [done |]. split; [done |].
  split; [unfold getRide, rides_get; cbn; apply lookup_insert_eq |].
  do 5 (split; [done |]).
  intros Hst Hnone.
  assert (with_ride k r2 st1 =
          with_ride k r2 {| nextRideId := (k + 1)%N; rides := rides st |})
    as ->.
  { unfold with_ride, st1. cbn. by rewrite insert_insert_eq. }
  assert (rides {| nextRideId := (k + 1)%N; rides := rides st |} !! k = None)
    as Hfresh by (cbn; apply (reachable_fresh st Hst)).
  apply Permutation_singleton_r. unfold getDriverRides in *.
  rewrite (collect_put_fresh _ _ _ _ Hfresh).
  change (rides_vals {| nextRideId := (k + 1)%N; rides := rides st |}).1
    with (rides_vals st).1.
  rewrite Hnone. cbn. by rewrite bool_decide_eq_true_2.
Qed.

Lemma create_accept_complete_witness :
  ∃ r1 st1 r2 st2 r3 st3,
    createRide "alice" 10%Z sample_pickup sample_dropoff float_12_5 init
      = (ok r1, st1) ∧
    acceptRide "dave" 11%Z 1%N st1 = (ok r2, st2) ∧
    completeRide "dave" 12%Z 1%N st2 = (ok r3, st3) ∧
    getDriverRides "dave" st2 = [r2] ∧
    status r2 = accepted ∧
    getRide 1%N st3 = Some r3 ∧
    status r3 = completed ∧
    (createdAt r3 < updatedAt r3)%Z.
Proof.
  destruct (create_accept_complete "alice" "dave" 10%Z 11%Z 12%Z
              sample_pickup sample_dropoff float_12_5 init)
    as (r1 & st1 & r2 & st2 & r3 & st3 & H1 & H2 & H3 & _ & _ & _ & Hs2 &
        Hget & Hs3 & _ & _ & Hc & Hu & Honly).
  exists r1, st1, r2, st2, r3, st3.
  assert (id r1 = 1%N) as Hid.
  { rewrite createRide_eq in H1. by injection H1 as <- _. }
  rewrite Hid in *. rewrite Hc, Hu.
  repeat split; try done.
  apply Honly; [constructor | reflexivity].
Defined.

(** *** Timestamps under a clock that may repeat *)

Lemma clock_monotone_cons m ms :
  clock_monotone (m :: ms) →
  clock_monotone ms ∧ Forall (λ m', msg_time m ≤ msg_time m')%Z ms.
Proof.
  unfold clock_monotone. rewrite fmap_cons. intros Hsorted.
  apply StronglySorted_inv in Hsorted as [Htail Hhead]. split; [done |].
  by rewrite Forall_fmap in Hhead.
Qed.

Lemma run_stamped_monotone ms st t :
  stamped t st →
  clock_monotone ms →
  Forall (λ m, t ≤ msg_time m)%Z ms →
  ∃ t', stamped t' (run ms st).2.
Proof.
  revert st t. induction ms as [| m ms IH]; intros st t Hinv Hclock Hafter.
  - by exists t.
  - apply clock_monotone_cons in Hclock as [Hclock Hhead].
    apply Forall_cons in Hafter as [Hm _].
    destruct (IH (dispatch m st).2 (msg_time m)) as (t' & Hinv');
      [by apply (dispatch_stamped t) | done | done |].
    exists t'. by rewrite run_cons.
Qed.

(** X13. [updatedAt ≥ createdAt] for every stored ride already holds when
    the clock readings of successive messages never decrease, even if
    several messages read the same time. *)
Theorem updatedAt_ge_createdAt ms k ride :
  clock_monotone ms →
  getRide k (run ms init).2 = Some ride →
  (createdAt ride ≤ updatedAt ride)%Z.
Proof.
  intros Hclock Hk.
  assert (∃ t, Forall (λ m, t ≤ msg_time m)%Z ms) as [t Hafter].
  { destruct ms as [| m ms]; [by exists 0%Z |].
    exists (msg_time m). apply clock_monotone_cons in Hclock as [_ Hhead].
    by constructor. }
  destruct (run_stamped_monotone ms init t (init_stamped t) Hclock Hafter)
    as (t' & Hinv).
  specialize (Hinv _ _ Hk). lia.
Qed.

Lemma updatedAt_ge_createdAt_witness :
  ∃ ride,
    getRide 1%N
      (run [sample_create "alice" 10%Z; sample_accept "dave" 10%Z 1%N;
            sample_complete "dave" 10%Z 1%N] init).2 = Some ride ∧
    status ride = completed ∧
    (createdAt ride ≤ updatedAt ride)%Z.
Proof.
  eexists. split; [vm_compute; reflexivity |]. split; [reflexivity |].
  eapply (updatedAt_ge_createdAt
            [sample_create "alice" 10%Z; sample_accept "dave" 10%Z 1%N;
             sample_complete "dave" 10%Z 1%N] 1%N).
  - unfold clock_monotone. cbn. repeat constructor; discriminate.
  - vm_compute. reflexivity.
Defined.

(** The hypothesis on the clock is needed: a reading that goes back is
    stored as it is. *)
Example updatedAt_before_createdAt :
  ∃ ride,
    getRide 1%N
      (run [sample_create "alice" 10%Z; sample_accept "dave" 5%Z 1%N] init).2
      = Some ride ∧
    (updatedAt ride < createdAt ride)%Z.
Proof. eexists. split; [vm_compute; reflexivity | reflexivity]. Qed.

(** *** Updates of different rides *)

(** X14. An [acceptRide] or [completeRide] on one ride and one on another
    ride do not interfere: each call gets the same reply whether or not the
    other was processed first, and both orders leave the same registry. *)
Theorem updates_of_different_rides_commute m1 m2 k1 k2 st :
  msg_call m1 = AcceptRide k1 ∨ msg_call m1 = CompleteRide k1 →
  msg_call m2 = AcceptRide k2 ∨ msg_call m2 = CompleteRide k2 →
  k1 ≠ k2 →
  (dispatch m1 (dispatch m2 st).2).1 = (dispatch m1 st).1 ∧
  (dispatch m2 (dispatch m1 st).2).1 = (dispatch m2 st).1 ∧
  (dispatch m2 (dispatch m1 st).2).2 = (dispatch m1 (dispatch m2 st).2).2.
Proof.
  intros H1 H2 Hne. unfold dispatch.
  destruct H1 as [-> | ->], H2 as [-> | ->]; unfold_actor;
    destruct (rides st !! k1) as [r1 |] eqn:E1;
    destruct (rides st !! k2) as [r2 |] eqn:E2;
    repeat (case_decide; cbn);
    rewrite ?lookup_insert_ne by done; rewrite ?E1, ?E2; cbn;
    repeat (case_decide; cbn); try done;
    rewrite ?lookup_insert_ne by done; rewrite ?E1, ?E2; cbn;
    repeat (case_decide; cbn); try done.
  all: split; [done |]; split; [done |]; f_equal; by apply insert_insert_ne.
Qed.

Lemma updates_of_different_rides_commute_witness :
  (dispatch (sample_complete "dave" 21%Z 2%N)
     (dispatch (sample_accept "erin" 20%Z 1%N) sample_registry).2).2 =
  (dispatch (sample_accept "erin" 20%Z 1%N)
     (dispatch (sample_complete "dave" 21%Z 2%N) sample_registry).2).2.
Proof.
  apply (updates_of_different_rides_commute
           (sample_accept "erin" 20%Z 1%N) (sample_complete "dave" 21%Z 2%N)
           1%N 2%N sample_registry).
  - left. reflexivity.
  - right. reflexivity.
  - discriminate.
Defined.
